(** * Q15 saturating AXPY: scalar reference, RVV kernel and verifier

    A shallow embedding of [q15_axpy_challenge.c].  The C functions work on
    [int16_t] arrays through raw pointers and one element count [n]; they are
    embedded as state-passing functions over a block memory, so that buffer
    extents, aliasing between the output and the inputs, and accesses outside
    an array are all visible in the statements. *)

From Stdlib Require Import ZArith Lia.
From stdpp Require Import base option list numbers gmap.

Local Open Scope Z_scope.

(** ** Machine integers *)

Module MachInt.

(** A signed [w]-bit integer is a [Z] in [-2^(w-1), 2^(w-1)); converting an
    arbitrary integer to that type keeps its low [w] bits. *)
Definition wrap (w v : Z) : Z := (v + 2 ^ (w - 1)) `mod` 2 ^ w - 2 ^ (w - 1).

Definition int16 (v : Z) : Prop := -32768 ≤ v ≤ 32767.
Definition int32 (v : Z) : Prop := -2147483648 ≤ v ≤ 2147483647.

Definition cast_int16 (v : Z) : Z := wrap 16 v.
Definition cast_int32 (v : Z) : Z := wrap 32 v.

Definition add32 (x y : Z) : Z := cast_int32 (x + y).
Definition sub32 (x y : Z) : Z := cast_int32 (x - y).
Definition mul32 (x y : Z) : Z := cast_int32 (x * y).
Definition neg32 (x : Z) : Z := cast_int32 (- x).

Global Instance int16_dec v : Decision (int16 v).
Proof. unfold int16. apply _. Defined.

Global Instance int32_dec v : Decision (int32 v).
Proof. unfold int32. apply _. Defined.

End MachInt.
Import MachInt.

(** ** Memory: blocks of [int16_t] cells *)

Definition block := nat.

(** A pointer is a block and an element offset into it ([int16_t] units). *)
Record ptr := Ptr { ptr_block : block; ptr_off : Z }.

Arguments Ptr _%_nat _%_Z.

Global Instance ptr_eq_dec : EqDecision ptr.
Proof. solve_decision. Defined.

Definition ptr_add (p : ptr) (i : Z) : ptr := Ptr (ptr_block p) (ptr_off p + i).

Notation "p +ₚ i" := (ptr_add p i) (at level 50, left associativity).

Abbreviation mem := (gmap block (list Z)).

(** [p[0]] as an rvalue.  An access outside the block has no defined
    behaviour in C; the embedding returns [None] there. *)
Definition load (m : mem) (p : ptr) : option Z :=
  if ptr_off p <? 0 then None
  else l ← m !! ptr_block p; l !! Z.to_nat (ptr_off p).

(** [p[0] = v]. *)
Definition store (m : mem) (p : ptr) (v : Z) : option mem :=
  if ptr_off p <? 0 then None
  else
    l ← m !! ptr_block p;
    if decide (Z.to_nat (ptr_off p) < length l)%nat
    then Some (<[ptr_block p := <[Z.to_nat (ptr_off p) := v]> l]> m)
    else None.

(** The contents of [p[0..n)]. *)
Definition read_buf (m : mem) (p : ptr) (n : Z) : option (list Z) :=
  mapM (λ i, load m (p +ₚ i)) (seqZ 0 n).

(** ** Counted loops *)

(** [for (int i = lo; i < hi; ++i) body], threading a state [S] through the
    iterations; the loop stops at the first iteration that faults. *)
Fixpoint for_indices {S : Type} (body : Z → S → option S)
    (idx : list Z) (s : S) : option S :=
  match idx with
  | [] => Some s
  | i :: rest => s' ← body i s; for_indices body rest s'
  end.

Definition for_range {S : Type} (lo hi : Z) (body : Z → S → option S) (s : S)
    : option S :=
  for_indices body (seqZ lo (hi - lo)) s.

(** ** Scalar reference *)

Definition sat_q15_scalar (v : Z) : Z :=
  if 32767 <? v then 32767
  else if v <? -32768 then -32768
  else cast_int16 v.

(** [(int32_t)a[i] + (int32_t)alpha * (int32_t)b[i]] *)
Definition axpy_acc (ai alpha bi : Z) : Z :=
  add32 (cast_int32 ai) (mul32 (cast_int32 alpha) (cast_int32 bi)).

Definition q15_axpy_ref_body (a b y : ptr) (alpha : Z) (i : Z) (m : mem)
    : option mem :=
  ai ← load m (a +ₚ i);
  bi ← load m (b +ₚ i);
  let acc := axpy_acc ai alpha bi in
  store m (y +ₚ i) (sat_q15_scalar acc).

Definition q15_axpy_ref (a b y : ptr) (n : Z) (alpha : Z) (m : mem)
    : option mem :=
  for_range 0 n (q15_axpy_ref_body a b y alpha) m.

(** ** RVV kernel *)

(** Fixed-point rounding mode, the [vxrm] register read by [vnclip]. *)
Inductive vxrm := RNU | RNE | RDN | ROD.

(** Vector register groups, as the list of their first [vl] lanes.  Groups
    of 16-bit and of 32-bit elements are different types, as in
    [riscv_vector.h]. *)
Record vint16m2_t := V16 { v16_lanes : list Z }.
Record vint32m4_t := V32 { v32_lanes : list Z }.

(** What the kernel sees of a vector target: the largest group of 16-bit
    elements at LMUL = 2, the answer of [vsetvl] to a requested length, the
    current rounding mode, and what becomes of a 16-bit group handed to an
    intrinsic that takes a 32-bit one.  Line 45 of the source makes such a
    call ([vmul_vx_i32m4] on [vb]); C gives it no meaning, so the group that
    reaches the intrinsic is left to the target and nothing is assumed
    about it. *)
Record rvv_hw := RvvHw {
  VLMAX_e16m2 : Z;
  vsetvl_e16m2 : Z → Z;
  hw_vxrm : vxrm;
  vint16m2_as_vint32m4 : vint16m2_t → vint32m4_t
}.

(** The constraints the vector extension puts on [vsetvl]; VLEN is at most
    2^16 bits, hence at most 8192 16-bit elements at LMUL = 2. *)
Record rvv_conforming (hw : rvv_hw) : Prop := {
  VLMAX_pos : 0 < VLMAX_e16m2 hw;
  VLMAX_max : VLMAX_e16m2 hw ≤ 8192;
  vsetvl_small : ∀ avl, 0 ≤ avl ≤ VLMAX_e16m2 hw → vsetvl_e16m2 hw avl = avl;
  vsetvl_mid : ∀ avl, VLMAX_e16m2 hw < avl < 2 * VLMAX_e16m2 hw →
    (avl + 1) / 2 ≤ vsetvl_e16m2 hw avl ≤ VLMAX_e16m2 hw;
  vsetvl_large : ∀ avl, 2 * VLMAX_e16m2 hw ≤ avl →
    vsetvl_e16m2 hw avl = VLMAX_e16m2 hw
}.

(** The intrinsics are not part of the repository; each is modelled after the
    vector instruction it names. *)
Definition lanes (vl : Z) (v : list Z) : list Z := take (Z.to_nat vl) v.

Fixpoint write_buf (m : mem) (p : ptr) (vs : list Z) : option mem :=
  match vs with
  | [] => Some m
  | v :: rest => m' ← store m p v; write_buf m' (p +ₚ 1) rest
  end.

Definition vle16_v_i16m2 (m : mem) (p : ptr) (vl : Z) : option vint16m2_t :=
  V16 <$> read_buf m p vl.

Definition vse16_v_i16m2 (m : mem) (p : ptr) (v : vint16m2_t) (vl : Z)
    : option mem :=
  write_buf m p (lanes vl (v16_lanes v)).

(** A 32-bit multiply of each lane by the scalar, low 32 bits kept. *)
Definition vmul_vx_i32m4 (v : vint32m4_t) (x : Z) (vl : Z) : vint32m4_t :=
  V32 ((λ e, mul32 e (cast_int32 x)) <$> lanes vl (v32_lanes v)).

Definition vwadd_vx_i32m4 (v : vint16m2_t) (x : Z) (vl : Z) : vint32m4_t :=
  V32 ((λ e, add32 (cast_int32 e) (cast_int32 (cast_int16 x)))
         <$> lanes vl (v16_lanes v)).

Definition vadd_vv_i32m4 (u v : vint32m4_t) (vl : Z) : vint32m4_t :=
  V32 (zip_with add32 (lanes vl (v32_lanes u)) (lanes vl (v32_lanes v))).

(** [roundoff_signed(v, d) = (v >> d) + r], with the increment [r] chosen by
    the rounding mode from the bits shifted out. *)
Definition roundoff_signed (rm : vxrm) (v d : Z) : Z :=
  let r :=
    if d =? 0 then false
    else match rm with
         | RNU => Z.testbit v (d - 1)
         | RNE => Z.testbit v (d - 1) &&
                  (negb (Z.land v (Z.ones (d - 1)) =? 0) || Z.testbit v d)
         | RDN => false
         | ROD => negb (Z.testbit v d) && negb (Z.land v (Z.ones d) =? 0)
         end in
  Z.shiftr v d + Z.b2z r.

Definition clip_int16 (v : Z) : Z := Z.max (-32768) (Z.min 32767 v).

(** Narrowing clip: shift right by the low five bits of [shift], round, then
    saturate to 16 bits. *)
Definition vnclip_wx_i16m2 (rm : vxrm) (v : vint32m4_t) (shift : Z) (vl : Z)
    : vint16m2_t :=
  V16 ((λ e, clip_int16 (roundoff_signed rm e (Z.land shift 31)))
         <$> lanes vl (v32_lanes v)).

(** [for (int i = 0; i < n; i += vl)]: the stride is whatever [vsetvl]
    answers, so the loop is run on fuel; [None] also stands for a loop that
    has not finished when the fuel is spent. *)
Fixpoint q15_axpy_rvv_loop (hw : rvv_hw) (a b y : ptr) (n : Z) (alpha : Z)
    (fuel : nat) (i : Z) (m : mem) : option mem :=
  if i <? n then
    match fuel with
    | O => None
    | S fuel' =>
        let vl := cast_int32 (vsetvl_e16m2 hw (n - i)) in
        va ← vle16_v_i16m2 m (a +ₚ i) vl;
        vb ← vle16_v_i16m2 m (b +ₚ i) vl;
        let vprod := vmul_vx_i32m4 (vint16m2_as_vint32m4 hw vb) alpha vl in
        let va_ext := vwadd_vx_i32m4 va 0 vl in
        let vacc := vadd_vv_i32m4 va_ext vprod vl in
        let vy := vnclip_wx_i16m2 (hw_vxrm hw) vacc 15 vl in
        m' ← vse16_v_i16m2 m (y +ₚ i) vy vl;
        q15_axpy_rvv_loop hw a b y n alpha fuel' (i + vl) m'
    end
  else Some m.

(** The build.  Without the vector extension, or with intrinsics older than
    v1.0, the preprocessor keeps the fallback branch only.  The other branch
    is guarded by the v1.0 intrinsics macro but is written with the
    unprefixed names of the earlier drafts and with the call of line 45, so
    the builds that compile are fallback builds; [Vector] stands for the text
    of that branch on a target that would accept it. *)
Inductive target := NoVector | Vector (hw : rvv_hw).

Definition q15_axpy_rvv (tgt : target) (a b y : ptr) (n : Z) (alpha : Z)
    (m : mem) : option mem :=
  match tgt with
  | NoVector => q15_axpy_ref a b y n alpha m
  | Vector hw => q15_axpy_rvv_loop hw a b y n alpha (Z.to_nat n) 0 m
  end.

(** ** Verifier *)

(** One iteration, on the pair [(ok, md)]. *)
Definition verify_equal_body (m : mem) (ref test : ptr) (i : Z)
    (st : Z * Z) : option (Z * Z) :=
  let '(ok, md) := st in
  r ← load m (ref +ₚ i);
  t ← load m (test +ₚ i);
  let d := sub32 (cast_int32 r) (cast_int32 t) in
  let d := if d <? 0 then neg32 d else d in
  let md := if md <? d then d else md in
  let ok := if negb (d =? 0) then 0 else ok in
  Some (ok, md).

(** Returns the pair of the [int] result and the value left in [*max_diff]. *)
Definition verify_equal (m : mem) (ref test : ptr) (n : Z) : option (Z * Z) :=
  for_range 0 n (verify_equal_body m ref test) (1, 0).

(** ** Concrete platforms and memories used in the examples *)

(** A vector unit with VLEN = 128: sixteen 16-bit elements at LMUL = 2. *)
Definition hw128 (rm : vxrm) : rvv_hw :=
  RvvHw 16 (λ avl, Z.min avl 16) rm (λ v, V32 (v16_lanes v)).

(** Three separate arrays, as [main] allocates them: [a], [b] and a zeroed
    output of the length of [a]. *)
Definition three_buffers (la lb : list Z) : mem :=
  <[0%nat := la]> (<[1%nat := lb]> (<[2%nat := replicate (length la) 0]> ∅)).

Definition buf_a : ptr := Ptr 0 0.
Definition buf_b : ptr := Ptr 1 0.
Definition buf_y : ptr := Ptr 2 0.

(** ** What the specification says, in its own words *)

(** [saturate(v)]: clamp into [-32768, 32767]. *)
Definition saturate_spec (v : Z) : Z :=
  if 32767 <? v then 32767
  else if v <? -32768 then -32768
  else v.

(** The largest absolute difference of two buffers, zero when there is none. *)
Definition max_abs_diff_spec (lr lt : list Z) : Z :=
  foldr Z.max 0 (zip_with (λ r t, Z.abs (r - t)) lr lt).

(** ** Predicates on invocations *)

(** [p[0..n)] lies inside one array. *)
Definition valid_range (m : mem) (p : ptr) (n : Z) : Prop :=
  ∀ i, 0 ≤ i < n → is_Some (load m (p +ₚ i)).

(** [p[0..n)] and [q[0..k)] share no cell. *)
Definition disjoint_ranges (p : ptr) (n : Z) (q : ptr) (k : Z) : Prop :=
  ∀ i j, 0 ≤ i < n → 0 ≤ j < k → p +ₚ i ≠ q +ₚ j.

(** Every cell outside [y[0..n)] reads the same in [m'] as in [m]. *)
Definition only_writes (m m' : mem) (y : ptr) (n : Z) : Prop :=
  ∀ q, (∀ i, 0 ≤ i < n → q ≠ y +ₚ i) → load m' q = load m q.

(** The vector unit of a vector build meets the ISA's constraints. *)
Definition target_conforming (tgt : target) : Prop :=
  match tgt with
  | NoVector => True
  | Vector hw => rvv_conforming hw
  end.

(** No cell of [y] written at an earlier index is a cell of [p] read at a
    later one; this holds when the two ranges are apart, and also when [y]
    and [p] are the same pointer. *)
Definition forward_safe (y p : ptr) (n : Z) : Prop :=
  ∀ i j, 0 ≤ j < i → i < n → y +ₚ j ≠ p +ₚ i.

(** ** The test program *)

(** [(int16_t)((rand() % 65536) - 32768)], for a draw [r] of [rand()]. *)
Definition rand_sample (r : Z) : Z := cast_int16 (Z.rem r 65536 - 32768).

Definition main_N : Z := 4096.
Definition main_alpha : Z := 3.

(** What [main] computes on a RISC-V build: the reference run into [y0], the
    kernel under test into [y1], the comparison, and the exit status
    [ok ? 0 : 1].  The four arrays and their contents are the initial
    memory; cycle counting and printing are left out. *)
Definition main (tgt : target) (a b y0 y1 : ptr) (m : mem) : option Z :=
  m1 ← q15_axpy_ref a b y0 main_N main_alpha m;
  m2 ← q15_axpy_rvv tgt a b y1 main_N main_alpha m1;
  '(ok, md) ← verify_equal m2 y0 y1 main_N;
  Some (if ok =? 0 then 1 else 0).

(** Four separate arrays of equal length: two inputs and two zeroed
    outputs. *)
Definition four_buffers (la lb : list Z) : mem :=
  <[0%nat := la]> (<[1%nat := lb]>
    (<[2%nat := replicate (length la) 0]>
      (<[3%nat := replicate (length la) 0]> ∅))).

Definition buf_y1 : ptr := Ptr 3 0.

(** * Properties *)

(** ** Machine integers *)

Section machine_integers.

Lemma cast_int16_id v : int16 v → cast_int16 v = v.
Proof.
  unfold int16, cast_int16, wrap. intros Hv.
  change (2 ^ (16 - 1)) with 32768. change (2 ^ 16) with 65536.
  rewrite Z.mod_small by lia. lia.
Qed.

Lemma cast_int32_id v : int32 v → cast_int32 v = v.
Proof.
  unfold int32, cast_int32, wrap. intros Hv.
  change (2 ^ (32 - 1)) with 2147483648. change (2 ^ 32) with 4294967296.
  rewrite Z.mod_small by lia. lia.
Qed.

Lemma int16_int32 v : int16 v → int32 v.
Proof. unfold int16, int32. lia. Qed.

Lemma int16_product_bound x y :
  int16 x → int16 y → -1073709056 ≤ x * y ≤ 1073741824.
Proof. unfold int16. intros Hx Hy. nia. Qed.

Lemma axpy_acc_exact ai alpha bi :
  int16 ai → int16 alpha → int16 bi → axpy_acc ai alpha bi = ai + alpha * bi.
Proof.
  intros Ha Hal Hb. unfold axpy_acc, add32, mul32.
  pose proof (int16_product_bound alpha bi Hal Hb) as Hp.
  rewrite !(cast_int32_id ai), !(cast_int32_id alpha), !(cast_int32_id bi)
    by (by apply int16_int32).
  rewrite (cast_int32_id (alpha * bi)) by (unfold int32; lia).
  apply cast_int32_id. unfold int16, int32 in *. lia.
Qed.

(** With a zero coefficient the product vanishes whatever [b[i]] holds. *)
Lemma axpy_acc_alpha_0 ai bi : int16 ai → axpy_acc ai 0 bi = ai.
Proof.
  intros Ha. unfold axpy_acc, add32, mul32.
  rewrite (cast_int32_id 0) by (unfold int32; lia).
  rewrite Z.mul_0_l, (cast_int32_id 0) by (unfold int32; lia).
  rewrite Z.add_0_r, (cast_int32_id ai) by (by apply int16_int32).
  apply cast_int32_id. by apply int16_int32.
Qed.

Lemma sat_q15_scalar_saturate v : sat_q15_scalar v = saturate_spec v.
Proof.
  unfold sat_q15_scalar, saturate_spec.
  destruct (32767 <? v) eqn:Hhi; [done|].
  destruct (v <? -32768) eqn:Hlo; [done|].
  apply cast_int16_id. unfold int16. lia.
Qed.

Lemma saturate_spec_int16 v : int16 (saturate_spec v).
Proof. unfold saturate_spec, int16. repeat case_match; lia. Qed.

Lemma saturate_spec_id v : int16 v → saturate_spec v = v.
Proof. unfold saturate_spec, int16. intros. repeat case_match; lia. Qed.

End machine_integers.

(** ** Pointers and single accesses *)

Section memory.
Implicit Types (m : mem) (p q : ptr) (i j n v : Z).

Lemma ptr_add_0 p : p +ₚ 0 = p.
Proof. destruct p. unfold ptr_add. simpl. f_equal. lia. Qed.

Lemma ptr_add_assoc p i j : p +ₚ i +ₚ j = p +ₚ (i + j).
Proof. destruct p. unfold ptr_add. simpl. f_equal. lia. Qed.

Global Instance ptr_add_inj p : Inj eq eq (ptr_add p).
Proof. destruct p. intros i j [=]. lia. Qed.

Lemma store_Some_inv m p v m' :
  store m p v = Some m' →
  ∃ l, 0 ≤ ptr_off p ∧ m !! ptr_block p = Some l ∧
       (Z.to_nat (ptr_off p) < length l)%nat ∧
       m' = <[ptr_block p := <[Z.to_nat (ptr_off p) := v]> l]> m.
Proof.
  unfold store. destruct (ptr_off p <? 0) eqn:Hoff; [done|].
  destruct (m !! ptr_block p) as [l|] eqn:Hl; [|done]. simpl.
  case_decide; [|done]. intros [= <-]. exists l. repeat split; [lia|done..].
Qed.

Lemma load_store_same m p v m' : store m p v = Some m' → load m' p = Some v.
Proof.
  intros (l & Hoff & Hl & Hlt & ->)%store_Some_inv. unfold load.
  destruct (ptr_off p <? 0) eqn:?; [lia|].
  rewrite lookup_insert_eq. simpl. by apply list_lookup_insert_eq.
Qed.

Lemma load_store_other m p v m' q :
  store m p v = Some m' → q ≠ p → load m' q = load m q.
Proof.
  intros (l & Hoff & Hl & Hlt & ->)%store_Some_inv Hne. unfold load.
  destruct (ptr_off q <? 0) eqn:Hq; [done|].
  destruct (decide (ptr_block p = ptr_block q)) as [Hb|Hb].
  - rewrite <-Hb, lookup_insert_eq, Hl. simpl.
    apply list_lookup_insert_ne. intros Hi. apply Hne.
    destruct p, q; simpl in *. f_equal; [done|lia].
  - by rewrite lookup_insert_ne.
Qed.

Lemma store_is_Some m p v : is_Some (load m p) → is_Some (store m p v).
Proof.
  unfold load, store. destruct (ptr_off p <? 0); [by intros [? [=]]|].
  destruct (m !! ptr_block p) as [l|]; simpl; [|by intros [? [=]]].
  intros Hl%lookup_lt_is_Some. by rewrite decide_True.
Qed.

Lemma store_Some_load m p v m' : store m p v = Some m' → is_Some (load m p).
Proof.
  intros (l & Hoff & Hl & Hlt & ->)%store_Some_inv. unfold load.
  destruct (ptr_off p <? 0) eqn:?; [lia|]. rewrite Hl. simpl.
  by apply lookup_lt_is_Some.
Qed.

(** A store never changes which cells exist. *)
Lemma store_valid m p v m' q :
  store m p v = Some m' → is_Some (load m' q) ↔ is_Some (load m q).
Proof.
  intros Hst. destruct (decide (q = p)) as [->|Hne].
  - rewrite (load_store_same _ _ _ _ Hst).
    split; [intros _; by eapply store_Some_load|by eauto].
  - by rewrite (load_store_other _ _ _ _ _ Hst Hne).
Qed.

End memory.

(** ** Buffers *)

Section buffers.
Implicit Types (m : mem) (p q : ptr) (i j n v : Z) (l vs : list Z).

Lemma read_buf_Some m p n l :
  read_buf m p n = Some l ↔
  length l = Z.to_nat n ∧
  ∀ k : nat, (k < Z.to_nat n)%nat → load m (p +ₚ Z.of_nat k) = l !! k.
Proof.
  unfold read_buf. rewrite mapM_Some, Forall2_same_length_lookup, length_seqZ.
  split.
  - intros [Hlen Hall]. split; [done|]. intros k Hk.
    destruct (lookup_lt_is_Some_2 l k) as [x Hx]; [lia|]. rewrite Hx.
    apply (Hall k (Z.of_nat k) x); [|done].
    by rewrite lookup_seqZ_lt by lia.
  - intros [Hlen Hall]. split; [done|]. intros k x z Hx Hz.
    apply lookup_seqZ in Hx as [-> Hk]. cbn beta.
    rewrite Z.add_0_l, Hall by lia. done.
Qed.

Lemma read_buf_length m p n l : read_buf m p n = Some l → length l = Z.to_nat n.
Proof. by intros [? _]%read_buf_Some. Qed.

Lemma read_buf_lookup m p n l i :
  read_buf m p n = Some l → 0 ≤ i < n → load m (p +ₚ i) = l !! Z.to_nat i.
Proof.
  intros [_ Hall]%read_buf_Some Hi.
  rewrite <-(Hall (Z.to_nat i)) by lia. by rewrite Z2Nat.id by lia.
Qed.

Lemma read_buf_valid m p n : is_Some (read_buf m p n) ↔ valid_range m p n.
Proof.
  unfold read_buf, valid_range. rewrite mapM_is_Some, Forall_seqZ.
  split; intros H i Hi; apply H; lia.
Qed.

(** Reading a buffer only depends on its own cells. *)
Lemma read_buf_ext m m' p n :
  (∀ i, 0 ≤ i < n → load m' (p +ₚ i) = load m (p +ₚ i)) →
  read_buf m' p n = read_buf m p n.
Proof.
  intros Heq. apply option_eq. intros l. rewrite !read_buf_Some.
  split; intros [Hlen Hall]; (split; [done|]); intros k Hk;
    rewrite <-Hall by done; [symmetry|]; apply Heq; lia.
Qed.

Lemma write_buf_frame m p vs m' :
  write_buf m p vs = Some m' → only_writes m m' p (Z.of_nat (length vs)).
Proof.
  revert m p. induction vs as [|v vs IH]; intros m p; simpl.
  - intros [= <-] q _. done.
  - destruct (store m p v) as [m1|] eqn:Hst; [simpl|done].
    intros Hw q Hq. rewrite (IH _ _ Hw).
    + eapply load_store_other; [done|].
      rewrite <-(ptr_add_0 p). apply Hq. lia.
    + intros i Hi. rewrite ptr_add_assoc. apply Hq. lia.
Qed.

Lemma write_buf_valid m p vs m' q :
  write_buf m p vs = Some m' → is_Some (load m' q) ↔ is_Some (load m q).
Proof.
  revert m p. induction vs as [|v vs IH]; intros m p; simpl.
  - by intros [= <-].
  - destruct (store m p v) as [m1|] eqn:Hst; [simpl|done].
    intros Hw. rewrite (IH _ _ Hw). by eapply store_valid.
Qed.

Lemma write_buf_is_Some m p vs :
  valid_range m p (Z.of_nat (length vs)) → is_Some (write_buf m p vs).
Proof.
  revert m p. induction vs as [|v vs IH]; intros m p Hv; simpl; [by eauto|].
  destruct (store_is_Some m p v) as [m1 Hst].
  { rewrite <-(ptr_add_0 p). apply Hv. simpl. lia. }
  rewrite Hst. simpl. apply IH. intros i Hi.
  rewrite (store_valid _ _ _ _ _ Hst), ptr_add_assoc. apply Hv. simpl. lia.
Qed.

Lemma only_writes_read_buf m m' y n p k :
  only_writes m m' y n → disjoint_ranges y n p k →
  read_buf m' p k = read_buf m p k.
Proof.
  intros Hw Hd. apply read_buf_ext. intros i Hi. apply Hw.
  intros j Hj Heq. by apply (Hd j i).
Qed.

End buffers.

(** ** Loop rules *)

Section loops.
Context {S : Type}.
Implicit Types (body : Z → S → option S) (P : Z → S → Prop).

(** Total correctness: every iteration runs and re-establishes [P]. *)
Lemma for_range_total P lo hi body s :
  P lo s →
  (∀ i s, lo ≤ i < hi → P i s → ∃ s', body i s = Some s' ∧ P (i + 1) s') →
  ∃ s', for_range lo hi body s = Some s' ∧ P (Z.max lo hi) s'.
Proof.
  unfold for_range. remember (Z.to_nat (hi - lo)) as k eqn:Hk.
  revert lo s Hk. induction k as [|k IH]; intros lo s Hk H0 Hstep.
  - rewrite seqZ_nil by lia. simpl. exists s. split; [done|].
    by replace (Z.max lo hi) with lo by lia.
  - rewrite seqZ_cons by lia. simpl.
    destruct (Hstep lo s) as (s1 & -> & H1); [lia|done|]. simpl.
    replace (Z.pred (hi - lo)) with (hi - Z.succ lo) by lia.
    destruct (IH (Z.succ lo) s1) as (s' & Hrun & Hend); [lia|done| |].
    { intros i s2 Hi. apply Hstep. lia. }
    exists s'. split; [done|].
    by replace (Z.max lo hi) with (Z.max (Z.succ lo) hi) by lia.
Qed.

(** Partial correctness: [P] is kept by the iterations that did run. *)
Lemma for_range_partial P lo hi body s s' :
  P lo s →
  (∀ i s s', lo ≤ i < hi → P i s → body i s = Some s' → P (i + 1) s') →
  for_range lo hi body s = Some s' → P (Z.max lo hi) s'.
Proof.
  unfold for_range. remember (Z.to_nat (hi - lo)) as k eqn:Hk.
  revert lo s Hk. induction k as [|k IH]; intros lo s Hk H0 Hstep.
  - rewrite seqZ_nil by lia. simpl. intros [= <-].
    by replace (Z.max lo hi) with lo by lia.
  - rewrite seqZ_cons by lia. simpl.
    destruct (body lo s) as [s1|] eqn:Hb; [simpl|done].
    replace (Z.pred (hi - lo)) with (hi - Z.succ lo) by lia. intros Hrun.
    replace (Z.max lo hi) with (Z.max (Z.succ lo) hi) by lia.
    apply (IH (Z.succ lo) s1); [lia| |intros i s2 s3 Hi; apply Hstep; lia|done].
    apply (Hstep lo s s1); [lia|done..].
Qed.

End loops.

(** ** The scalar kernel *)

Section scalar_kernel.
Implicit Types (m : mem) (a b y p q : ptr) (i j n alpha : Z).

Lemma q15_axpy_ref_body_Some a b y alpha i m m' :
  q15_axpy_ref_body a b y alpha i m = Some m' ↔
  ∃ ai bi, load m (a +ₚ i) = Some ai ∧ load m (b +ₚ i) = Some bi ∧
           store m (y +ₚ i) (sat_q15_scalar (axpy_acc ai alpha bi)) = Some m'.
Proof.
  unfold q15_axpy_ref_body. split.
  - destruct (load m (a +ₚ i)) as [ai|]; [simpl|done].
    destruct (load m (b +ₚ i)) as [bi|]; [simpl|done]. eauto.
  - intros (ai & bi & -> & -> & Hst). done.
Qed.

Lemma only_writes_refl m y n : only_writes m m y n.
Proof. by intros q _. Qed.

Lemma only_writes_store m s s' y i v :
  0 ≤ i → only_writes m s y i → store s (y +ₚ i) v = Some s' →
  only_writes m s' y (i + 1).
Proof.
  intros Hi Hw Hst q Hq.
  rewrite (load_store_other _ _ _ _ q Hst) by (apply Hq; lia).
  apply Hw. intros j Hj. apply Hq. lia.
Qed.

Lemma only_writes_weaken m m' y n :
  only_writes m m' y (Z.max 0 n) → only_writes m m' y n.
Proof. intros Hw q Hq. apply Hw. intros i Hi. apply Hq. lia. Qed.

(** The kernel writes nothing but [y[0..n)]. *)
Lemma q15_axpy_ref_only_writes a b y n alpha m m' :
  q15_axpy_ref a b y n alpha m = Some m' → only_writes m m' y n.
Proof.
  intros Hrun. apply only_writes_weaken.
  revert Hrun. unfold q15_axpy_ref.
  apply (for_range_partial (λ i s, only_writes m s y i)).
  - apply only_writes_refl.
  - intros i s s' Hi Hw (ai & bi & _ & _ & Hst)%q15_axpy_ref_body_Some.
    eapply only_writes_store; [lia|done..].
Qed.

(** The kernel finishes whenever the three buffers hold [n] elements,
    whether or not they overlap. *)
Lemma q15_axpy_ref_is_Some a b y n alpha m :
  valid_range m a n → valid_range m b n → valid_range m y n →
  is_Some (q15_axpy_ref a b y n alpha m).
Proof.
  intros Ha Hb Hy. unfold q15_axpy_ref.
  destruct (for_range_total
    (λ _ s, ∀ q, is_Some (load s q) ↔ is_Some (load m q))
    0 n (q15_axpy_ref_body a b y alpha) m) as (m' & Hrun & _); [done| |by eauto].
  intros i s Hi Hs.
  destruct (proj2 (Hs (a +ₚ i)) (Ha i Hi)) as [ai Hai].
  destruct (proj2 (Hs (b +ₚ i)) (Hb i Hi)) as [bi Hbi].
  destruct (store_is_Some s (y +ₚ i) (sat_q15_scalar (axpy_acc ai alpha bi)))
    as [s' Hst]; [by apply Hs, Hy|].
  exists s'. split; [apply q15_axpy_ref_body_Some; by eauto|].
  intros q. rewrite <-Hs. by eapply store_valid.
Qed.

(** What the kernel leaves in [y] when the output is apart from the
    inputs. *)
Lemma q15_axpy_ref_run a b y n alpha m la lb :
  read_buf m a n = Some la → read_buf m b n = Some lb →
  valid_range m y n →
  disjoint_ranges y n a n → disjoint_ranges y n b n →
  ∃ m', q15_axpy_ref a b y n alpha m = Some m' ∧
        only_writes m m' y n ∧
        read_buf m' y n =
          Some (zip_with (λ ai bi, sat_q15_scalar (axpy_acc ai alpha bi)) la lb).
Proof.
  intros Hla Hlb Hy Hda Hdb.
  set (out := zip_with (λ ai bi, sat_q15_scalar (axpy_acc ai alpha bi)) la lb).
  pose proof (read_buf_length _ _ _ _ Hla) as Hlena.
  pose proof (read_buf_length _ _ _ _ Hlb) as Hlenb.
  destruct (for_range_total
    (λ i s, only_writes m s y i ∧
            (∀ q, is_Some (load s q) ↔ is_Some (load m q)) ∧
            ∀ j, 0 ≤ j < i → load s (y +ₚ j) = out !! Z.to_nat j)
    0 n (q15_axpy_ref_body a b y alpha) m) as (m' & Hrun & Hw & _ & Hout).
  { split; [apply only_writes_refl|]. split; [done|]. intros j Hj. lia. }
  { intros i s Hi (Hw & Hv & Hout).
    destruct (lookup_lt_is_Some_2 la (Z.to_nat i)) as [ai Hai]; [lia|].
    destruct (lookup_lt_is_Some_2 lb (Z.to_nat i)) as [bi Hbi]; [lia|].
    assert (load s (a +ₚ i) = Some ai) as Hai'.
    { rewrite Hw by (intros j Hj Heq; apply (Hda j i); [lia|lia|done]).
      by rewrite (read_buf_lookup _ _ _ _ _ Hla Hi). }
    assert (load s (b +ₚ i) = Some bi) as Hbi'.
    { rewrite Hw by (intros j Hj Heq; apply (Hdb j i); [lia|lia|done]).
      by rewrite (read_buf_lookup _ _ _ _ _ Hlb Hi). }
    destruct (store_is_Some s (y +ₚ i) (sat_q15_scalar (axpy_acc ai alpha bi)))
      as [s' Hst]; [by apply Hv, Hy|].
    exists s'. split; [apply q15_axpy_ref_body_Some; by eauto|].
    split; [eapply only_writes_store; [lia|done..]|].
    split; [intros q; rewrite <-Hv; by eapply store_valid|].
    intros j Hj. destruct (decide (j = i)) as [->|Hne].
    - rewrite (load_store_same _ _ _ _ Hst). symmetry. unfold out.
      rewrite lookup_zip_with, Hai, Hbi. done.
    - rewrite (load_store_other _ _ _ _ _ Hst).
      + apply Hout. lia.
      + intros Heq%(inj (ptr_add y)). done. }
  exists m'. split; [done|].
  split; [by apply only_writes_weaken|].
  apply read_buf_Some. split.
  - unfold out. rewrite length_zip_with_l_eq by lia. done.
  - intros k Hk. rewrite Hout by lia. by rewrite Nat2Z.id.
Qed.

(** With a zero coefficient the output is [a], whatever [b] holds. *)
Lemma zip_with_alpha_0 la lb :
  length la = length lb → Forall int16 la →
  zip_with (λ ai bi, sat_q15_scalar (axpy_acc ai 0 bi)) la lb = la.
Proof.
  intros Hlen Hla. revert lb Hlen.
  induction Hla as [|ai la Hai Hla IH]; intros [|bi lb] [=]; [done|]. simpl.
  rewrite IH by done. f_equal.
  rewrite axpy_acc_alpha_0, sat_q15_scalar_saturate by done.
  by apply saturate_spec_id.
Qed.

End scalar_kernel.

(** ** The vector kernel *)

Section vector_kernel.
Implicit Types (m : mem) (a b y p q : ptr) (i j n alpha vl : Z).
Context (hw : rvv_hw) (Hhw : rvv_conforming hw).

(** [vsetvl] grants at least one element and never more than asked. *)
Lemma vsetvl_bounds avl :
  0 < avl → 0 < vsetvl_e16m2 hw avl ≤ avl ∧ vsetvl_e16m2 hw avl ≤ 8192.
Proof.
  intros Havl. destruct Hhw as [Hpos Hmax Hsmall Hmid Hlarge].
  destruct (decide (avl ≤ VLMAX_e16m2 hw)) as [Hle|Hgt].
  { rewrite Hsmall by lia. lia. }
  destruct (decide (avl < 2 * VLMAX_e16m2 hw)) as [Hlt|Hge].
  - specialize (Hmid avl). 
    assert (1 ≤ (avl + 1) / 2) by (apply Z.div_le_lower_bound; lia). lia.
  - rewrite Hlarge by lia. lia.
Qed.

Lemma vsetvl_int32 avl :
  0 < avl → cast_int32 (vsetvl_e16m2 hw avl) = vsetvl_e16m2 hw avl.
Proof.
  intros Havl. apply cast_int32_id.
  pose proof (vsetvl_bounds avl Havl). unfold int32. lia.
Qed.

Lemma length_lanes vl (v : list Z) : (length (lanes vl v) ≤ Z.to_nat vl)%nat.
Proof. unfold lanes. rewrite length_take. lia. Qed.

Lemma valid_range_sub m p n i vl :
  valid_range m p n → 0 ≤ i → i + vl ≤ n → valid_range m (p +ₚ i) vl.
Proof. intros Hv Hi Hvl j Hj. rewrite ptr_add_assoc. apply Hv. lia. Qed.

(** From position [i] on, the loop writes nothing but [y[i..n)]. *)
Lemma q15_axpy_rvv_loop_only_writes a b y n alpha fuel i m m' :
  0 ≤ i →
  q15_axpy_rvv_loop hw a b y n alpha fuel i m = Some m' →
  ∀ q, (∀ j, i ≤ j < n → q ≠ y +ₚ j) → load m' q = load m q.
Proof.
  revert i m. induction fuel as [|fuel IH]; intros i m Hi; simpl;
    destruct (i <? n) eqn:Hin; try done; try (by intros [= <-]).
  rewrite vsetvl_int32 by lia.
  destruct (vsetvl_bounds (n - i)) as [Hvl _]; [lia|].
  set (vl := vsetvl_e16m2 hw (n - i)) in *.
  destruct (vle16_v_i16m2 m (a +ₚ i) vl) as [va|]; [simpl|done].
  destruct (vle16_v_i16m2 m (b +ₚ i) vl) as [vb|]; [simpl|done].
  unfold vse16_v_i16m2.
  match goal with
  | |- context [write_buf m (y +ₚ i) (lanes vl ?v)] =>
      pose proof (length_lanes vl v) as Hlen;
      destruct (write_buf m (y +ₚ i) (lanes vl v)) as [m1|] eqn:Hw;
        [simpl|done]
  end.
  intros Hrun q Hq. rewrite (IH (i + vl) m1 ltac:(lia) Hrun).
  - apply (write_buf_frame _ _ _ _ Hw). intros k Hk.
    rewrite ptr_add_assoc. apply Hq. lia.
  - intros j Hj. apply Hq. lia.
Qed.

(** The loop finishes when the three buffers hold [n] elements and the
    fuel covers what is left. *)
Lemma q15_axpy_rvv_loop_is_Some a b y n alpha fuel i m :
  0 ≤ i → n - i ≤ Z.of_nat fuel →
  valid_range m a n → valid_range m b n → valid_range m y n →
  is_Some (q15_axpy_rvv_loop hw a b y n alpha fuel i m).
Proof.
  revert i m. induction fuel as [|fuel IH]; intros i m Hi Hfuel Ha Hb Hy; simpl;
    destruct (i <? n) eqn:Hin; try (by eauto); [lia|].
  rewrite vsetvl_int32 by lia.
  destruct (vsetvl_bounds (n - i)) as [Hvl _]; [lia|].
  set (vl := vsetvl_e16m2 hw (n - i)) in *.
  destruct (proj2 (read_buf_valid m (a +ₚ i) vl)) as [va Hva].
  { apply (valid_range_sub _ _ n); [done|lia..]. }
  destruct (proj2 (read_buf_valid m (b +ₚ i) vl)) as [vb Hvb].
  { apply (valid_range_sub _ _ n); [done|lia..]. }
  unfold vle16_v_i16m2. rewrite Hva, Hvb. simpl. unfold vse16_v_i16m2.
  match goal with
  | |- context [write_buf m (y +ₚ i) (lanes vl ?v)] =>
      pose proof (length_lanes vl v) as Hlen;
      destruct (write_buf_is_Some m (y +ₚ i) (lanes vl v)) as [m1 Hw]
  end.
  { apply (valid_range_sub _ _ n); [done|lia..]. }
  rewrite Hw. simpl.
  apply IH; [lia..| | |]; intros j Hj;
    rewrite (write_buf_valid _ _ _ _ _ Hw); auto.
Qed.

End vector_kernel.

Section vector_build.
Implicit Types (m : mem) (a b y p q : ptr) (i j n alpha : Z) (tgt : target).

(** On a build without the vector extension the kernel is the scalar one. *)
Lemma q15_axpy_rvv_fallback a b y n alpha m :
  q15_axpy_rvv NoVector a b y n alpha m = q15_axpy_ref a b y n alpha m.
Proof. reflexivity. Qed.

Lemma q15_axpy_rvv_only_writes tgt a b y n alpha m m' :
  target_conforming tgt →
  q15_axpy_rvv tgt a b y n alpha m = Some m' → only_writes m m' y n.
Proof.
  destruct tgt as [|hw]; simpl; intros Hhw Hrun.
  - by eapply q15_axpy_ref_only_writes.
  - intros q Hq.
    by apply (q15_axpy_rvv_loop_only_writes hw Hhw _ _ _ _ _ _ 0 _ _ ltac:(lia) Hrun).
Qed.

Lemma q15_axpy_rvv_is_Some tgt a b y n alpha m :
  target_conforming tgt →
  valid_range m a n → valid_range m b n → valid_range m y n →
  is_Some (q15_axpy_rvv tgt a b y n alpha m).
Proof.
  destruct tgt as [|hw]; simpl; intros Hhw Ha Hb Hy.
  - by apply q15_axpy_ref_is_Some.
  - apply q15_axpy_rvv_loop_is_Some; [done|lia|lia|done..].
Qed.

(** The scalar kernel into [y0], then the fallback kernel into [y1], on
    arrays that are apart from each other: both outputs hold the same
    values. *)
Lemma two_runs_fallback a b y0 y1 n alpha m la lb :
  read_buf m a n = Some la → read_buf m b n = Some lb →
  valid_range m y0 n → valid_range m y1 n →
  disjoint_ranges y0 n a n → disjoint_ranges y0 n b n →
  disjoint_ranges y1 n a n → disjoint_ranges y1 n b n →
  disjoint_ranges y1 n y0 n →
  ∃ m1 m2,
    q15_axpy_ref a b y0 n alpha m = Some m1 ∧
    q15_axpy_rvv NoVector a b y1 n alpha m1 = Some m2 ∧
    read_buf m2 y0 n =
      Some (zip_with (λ ai bi, sat_q15_scalar (axpy_acc ai alpha bi)) la lb) ∧
    read_buf m2 y1 n =
      Some (zip_with (λ ai bi, sat_q15_scalar (axpy_acc ai alpha bi)) la lb).
Proof.
  intros Hla Hlb Hy0 Hy1 H0a H0b H1a H1b H10.
  destruct (q15_axpy_ref_run a b y0 n alpha m la lb)
    as (m1 & Hrun1 & Hw1 & Hout1); [done..|].
  assert (read_buf m1 a n = Some la) as Hla1.
  { rewrite <-Hla. by eapply only_writes_read_buf. }
  assert (read_buf m1 b n = Some lb) as Hlb1.
  { rewrite <-Hlb. by eapply only_writes_read_buf. }
  assert (valid_range m1 y1 n) as Hy11.
  { intros i Hi. rewrite Hw1; [by apply Hy1|].
    intros j Hj. by apply H10. }
  destruct (q15_axpy_ref_run a b y1 n alpha m1 la lb)
    as (m2 & Hrun2 & Hw2 & Hout2); [done..|].
  exists m1, m2. repeat split; [done..| |done].
  rewrite <-Hout1. by eapply only_writes_read_buf.
Qed.

End vector_build.

(** ** The verifier *)

Section verifier.
Implicit Types (m : mem) (ref test : ptr) (i n : Z) (lr lt : list Z).

(** The widened difference and its negation stay inside 32 bits. *)
Lemma abs_diff_exact r t :
  int16 r → int16 t →
  (let d := sub32 (cast_int32 r) (cast_int32 t) in
   if d <? 0 then neg32 d else d) = Z.abs (r - t).
Proof.
  intros Hr Ht. unfold sub32, neg32.
  rewrite (cast_int32_id r), (cast_int32_id t) by (by apply int16_int32).
  unfold int16 in *.
  rewrite (cast_int32_id (r - t)) by (unfold int32; lia). cbn zeta.
  destruct (r - t <? 0) eqn:Hd.
  - rewrite cast_int32_id by (unfold int32; lia). lia.
  - lia.
Qed.

Lemma max_abs_diff_snoc lr lt r t :
  length lr = length lt →
  max_abs_diff_spec (lr ++ [r]) (lt ++ [t]) =
  Z.max (max_abs_diff_spec lr lt) (Z.abs (r - t)).
Proof.
  intros Hlen. unfold max_abs_diff_spec. rewrite zip_with_app by done. simpl.
  generalize (zip_with (λ r0 t0, Z.abs (r0 - t0)) lr lt). intros l.
  induction l as [|x l IH]; simpl; lia.
Qed.

Lemma max_abs_diff_same l : max_abs_diff_spec l l = 0.
Proof.
  unfold max_abs_diff_spec. induction l as [|x l IH]; simpl; [done|].
  rewrite IH. lia.
Qed.

(** The loop leaves [ok] telling whether the buffers agree and [md] their
    largest absolute difference. *)
Lemma verify_equal_run m ref test n lr lt :
  read_buf m ref n = Some lr → read_buf m test n = Some lt →
  Forall int16 lr → Forall int16 lt →
  verify_equal m ref test n =
    Some (if decide (lr = lt) then 1 else 0, max_abs_diff_spec lr lt).
Proof.
  intros Hlr Hlt Hir Hit.
  pose proof (read_buf_length _ _ _ _ Hlr) as Hlenr.
  pose proof (read_buf_length _ _ _ _ Hlt) as Hlent.
  unfold verify_equal.
  destruct (for_range_total
    (λ i st,
       let k := Z.to_nat i in
       st = (if decide (take k lr = take k lt) then 1 else 0,
             max_abs_diff_spec (take k lr) (take k lt)))
    0 n (verify_equal_body m ref test) (1, 0)) as (st & -> & Hst).
  { simpl. by rewrite !take_0. }
  { intros i st Hi ->. cbn zeta. unfold verify_equal_body.
    destruct (lookup_lt_is_Some_2 lr (Z.to_nat i)) as [r Hr]; [lia|].
    destruct (lookup_lt_is_Some_2 lt (Z.to_nat i)) as [t Ht]; [lia|].
    rewrite (read_buf_lookup _ _ _ _ _ Hlr Hi), Hr.
    rewrite (read_buf_lookup _ _ _ _ _ Hlt Hi), Ht. simpl.
    eexists. split; [done|].
    assert (int16 r) as Hr16 by (by eapply (proj1 (Forall_lookup _ _) Hir)).
    assert (int16 t) as Ht16 by (by eapply (proj1 (Forall_lookup _ _) Hit)).
    pose proof (abs_diff_exact r t Hr16 Ht16) as Habs. cbn zeta in Habs.
    rewrite Habs.
    replace (Z.to_nat (i + 1)) with (S (Z.to_nat i)) by lia.
    rewrite (take_S_r lr _ r), (take_S_r lt _ t) by done.
    rewrite max_abs_diff_snoc by (rewrite !length_take; lia).
    f_equal.
    - destruct (decide (take (Z.to_nat i) lr = take (Z.to_nat i) lt)) as [Heq|Hne].
      + rewrite Heq. destruct (Z.abs (r - t) =? 0) eqn:Hz; simpl.
        * rewrite decide_True; [done|]. f_equal. f_equal. lia.
        * rewrite decide_False; [done|].
          intros [=]%(inj (app _)). lia.
      + rewrite decide_False.
        * by destruct (negb (Z.abs (r - t) =? 0)).
        * intros [? _]%app_inj_1; [done|]. rewrite !length_take. lia.
    - match goal with |- (if ?x <? ?d then _ else _) = _ =>
        destruct (x <? d) eqn:Hmd end; lia. }
  cbn zeta in Hst. rewrite !take_ge in Hst by lia. by rewrite Hst.
Qed.

(** The verifier finishes whenever both buffers hold [n] elements. *)
Lemma verify_equal_is_Some m ref test n :
  valid_range m ref n → valid_range m test n →
  is_Some (verify_equal m ref test n).
Proof.
  intros Hr Ht. unfold verify_equal.
  destruct (for_range_total (λ _ _, True)
    0 n (verify_equal_body m ref test) (1, 0)) as (st & Hrun & _);
    [done| |by eauto].
  intros i [ok md] Hi _. unfold verify_equal_body.
  destruct (Hr i Hi) as [r ->]. destruct (Ht i Hi) as [t ->]. simpl. eauto.
Qed.

End verifier.

(** ** Concrete invocations *)

Section concrete.

Lemma hw128_conforming rm : rvv_conforming (hw128 rm).
Proof.
  split; simpl; try lia; intros avl Havl; try lia.
  rewrite Z.min_r by lia. split; [|lia].
  apply Z.div_le_upper_bound; lia.
Qed.

Lemma buf_y_apart_a n k : disjoint_ranges buf_y n buf_a k.
Proof. by intros i j _ _ [=]. Qed.

Lemma buf_y_apart_b n k : disjoint_ranges buf_y n buf_b k.
Proof. by intros i j _ _ [=]. Qed.

End concrete.

(** A buffer read back by evaluation. *)
Ltac eval_buf := vm_compute; reflexivity.

(** A range shown valid by reading it. *)
Ltac eval_valid := apply read_buf_valid; vm_compute; by eexists.

(** Every listed value is an [int16]. *)
Ltac eval_int16 :=
  repeat first
    [ apply Forall_nil_2 | apply Forall_cons_2; [unfold int16; lia|] ].

(** * The claims *)



(** C2. At every index in range the scalar kernel stores the saturation of
    [a[i] + alpha * b[i]]: the sum is formed in 32-bit signed arithmetic and
    is exact there, and [saturate_spec] maps values above 32767 to 32767,
    values below -32768 to -32768 and leaves the others unchanged. *)
Theorem q15_axpy_ref_elementwise m a b y n alpha la lb :
  read_buf m a n = Some la → read_buf m b n = Some lb →
  valid_range m y n →
  disjoint_ranges y n a n → disjoint_ranges y n b n →
  Forall int16 la → Forall int16 lb → int16 alpha →
  ∃ m', q15_axpy_ref a b y n alpha m = Some m' ∧
        ∀ (k : nat) ai bi, la !! k = Some ai → lb !! k = Some bi →
          axpy_acc ai alpha bi = ai + alpha * bi ∧
          int32 (ai + alpha * bi) ∧
          load m' (y +ₚ Z.of_nat k) = Some (saturate_spec (ai + alpha * bi)).
Proof.
  intros Hla Hlb Hy Hda Hdb Hia Hib Hial.
  destruct (q15_axpy_ref_run a b y n alpha m la lb) as (m' & Hrun & _ & Hout);
    [done..|].
  exists m'. split; [done|]. intros k ai bi Hai Hbi.
  assert (int16 ai) as Hai16 by (by eapply (proj1 (Forall_lookup _ _) Hia)).
  assert (int16 bi) as Hbi16 by (by eapply (proj1 (Forall_lookup _ _) Hib)).
  pose proof (axpy_acc_exact ai alpha bi Hai16 Hial Hbi16) as Hacc.
  pose proof (int16_product_bound alpha bi Hial Hbi16) as Hprod.
  split; [done|]. split; [unfold int16, int32 in *; lia|].
  pose proof (read_buf_length _ _ _ _ Hla) as Hlen.
  apply lookup_lt_Some in Hai as Hk.
  rewrite (read_buf_lookup _ _ _ _ (Z.of_nat k) Hout) by lia.
  rewrite Nat2Z.id, lookup_zip_with, Hai, Hbi. simpl.
  by rewrite Hacc, sat_q15_scalar_saturate.
Qed.

Lemma q15_axpy_ref_elementwise_witness :
  ∃ m', q15_axpy_ref buf_a buf_b buf_y 2 5 (three_buffers [1; -30000] [3; 4000])
        = Some m' ∧
        ∀ (k : nat) ai bi,
          [1; -30000] !! k = Some ai → [3; 4000] !! k = Some bi →
          axpy_acc ai 5 bi = ai + 5 * bi ∧
          int32 (ai + 5 * bi) ∧
          load m' (buf_y +ₚ Z.of_nat k) = Some (saturate_spec (ai + 5 * bi)).
Proof.
  apply (q15_axpy_ref_elementwise (three_buffers [1; -30000] [3; 4000])
           buf_a buf_b buf_y 2 5 [1; -30000] [3; 4000]).
  - eval_buf.
  - eval_buf.
  - eval_valid.
  - apply buf_y_apart_a.
  - apply buf_y_apart_b.
  - eval_int16.
  - eval_int16.
  - unfold int16. lia.
Defined.

(** C3. For 16-bit [a[i]], [b[i]] and [alpha] the product and the sum fit in
    a signed 32-bit integer, so the accumulator the code computes is the exact
    value; at the extreme [alpha = -32768], [b[i] = -32768], [a[i] = 32767] it
    is 2^30 + 32767. *)
Theorem axpy_acc_no_overflow :
  (∀ ai alpha bi, int16 ai → int16 alpha → int16 bi →
     int32 (alpha * bi) ∧ int32 (ai + alpha * bi) ∧
     axpy_acc ai alpha bi = ai + alpha * bi) ∧
  axpy_acc 32767 (-32768) (-32768) = 2 ^ 30 + 32767 ∧
  int32 (2 ^ 30 + 32767).
Proof.
  split; [|split; [vm_compute; reflexivity|unfold int32; lia]].
  intros ai alpha bi Ha Hal Hb.
  pose proof (int16_product_bound alpha bi Hal Hb) as Hp.
  split; [unfold int32; lia|].
  split; [unfold int16, int32 in *; lia|].
  by apply axpy_acc_exact.
Qed.

Lemma axpy_acc_no_overflow_witness :
  int32 (-32768 * 32767) ∧ int32 (-32768 + -32768 * 32767) ∧
  axpy_acc (-32768) (-32768) 32767 = -32768 + -32768 * 32767.
Proof.
  apply (proj1 axpy_acc_no_overflow (-32768) (-32768) 32767);
    unfold int16; lia.
Defined.

(** C4. On one-element buffers the scalar kernel clamps at both ends:
    [32767 + 32767 * 32767] is stored as 32767 and
    [-32768 + 32767 * -32768] as -32768. *)
Theorem q15_axpy_ref_saturation_boundaries :
  (m' ← q15_axpy_ref buf_a buf_b buf_y 1 32767 (three_buffers [32767] [32767]);
   read_buf m' buf_y 1) = Some [32767] ∧
  (m' ← q15_axpy_ref buf_a buf_b buf_y 1 32767
         (three_buffers [-32768] [-32768]);
   read_buf m' buf_y 1) = Some [-32768] ∧
  axpy_acc 32767 32767 32767 = 1073709056 ∧
  axpy_acc (-32768) 32767 (-32768) = -1073741824.
Proof. repeat split; vm_compute; reflexivity. Qed.

(** C5. On two buffers of [n] 16-bit values the verifier returns 1 exactly
    when every elementwise difference is zero (and 0 otherwise), together with
    the largest absolute difference, which is zero for equal or empty buffers;
    a buffer compared with itself gives (1, 0), and [0] against [-32768]
    gives (0, 32768). *)
Theorem verify_equal_correct :
  (∀ m ref test n lr lt,
     read_buf m ref n = Some lr → read_buf m test n = Some lt →
     Forall int16 lr → Forall int16 lt →
     ∃ ok md, verify_equal m ref test n = Some (ok, md) ∧
              (ok = 1 ∨ ok = 0) ∧
              (ok = 1 ↔ ∀ (k : nat) r t,
                          lr !! k = Some r → lt !! k = Some t → r - t = 0) ∧
              md = max_abs_diff_spec lr lt) ∧
  (∀ m ref test n lx,
     read_buf m ref n = Some lx → read_buf m test n = Some lx →
     Forall int16 lx → verify_equal m ref test n = Some (1, 0)) ∧
  max_abs_diff_spec [] [] = 0 ∧
  verify_equal (three_buffers [0] [-32768]) buf_a buf_b 1 = Some (0, 32768).
Proof.
  split; [|split; [|split; [reflexivity|vm_compute; reflexivity]]].
  - intros m ref test n lr lt Hlr Hlt Hir Hit.
    rewrite (verify_equal_run m ref test n lr lt) by done.
    eexists _, _. split; [done|].
    pose proof (read_buf_length _ _ _ _ Hlr) as Hlenr.
    pose proof (read_buf_length _ _ _ _ Hlt) as Hlent.
    destruct (decide (lr = lt)) as [->|Hne].
    + split; [by left|]. split; [|done]. split; [|done].
      intros _ k r t Hr Ht. rewrite Hr in Ht. injection Ht as ->. lia.
    + split; [by right|]. split; [|done]. split; [done|].
      intros Hall. exfalso. apply Hne.
      apply (list_eq_same_length _ _ (Z.to_nat n)); [done..|].
      intros k r t _ Hr Ht. specialize (Hall k r t Hr Ht). lia.
  - intros m ref test n lx Hr Ht Hix.
    rewrite (verify_equal_run m ref test n lx lx) by done.
    by rewrite decide_True, max_abs_diff_same.
Qed.

Lemma verify_equal_correct_witness :
  ∃ ok md,
    verify_equal (three_buffers [5; -7; 100] [5; 32767; 90]) buf_a buf_b 3
      = Some (ok, md) ∧
    (ok = 1 ∨ ok = 0) ∧
    (ok = 1 ↔ ∀ (k : nat) r t,
                [5; -7; 100] !! k = Some r → [5; 32767; 90] !! k = Some t →
                r - t = 0) ∧
    md = max_abs_diff_spec [5; -7; 100] [5; 32767; 90].
Proof.
  apply (proj1 verify_equal_correct
           (three_buffers [5; -7; 100] [5; 32767; 90]) buf_a buf_b 3).
  - eval_buf.
  - eval_buf.
  - eval_int16.
  - eval_int16.
Defined.

(** C6. With an all-zero [b] and [alpha = 0] the scalar kernel copies a
    16-bit buffer [a] to the output unchanged. *)
Theorem q15_axpy_ref_identity m a b y n la :
  read_buf m a n = Some la →
  read_buf m b n = Some (replicate (Z.to_nat n) 0) →
  valid_range m y n →
  disjoint_ranges y n a n → disjoint_ranges y n b n →
  Forall int16 la →
  ∃ m', q15_axpy_ref a b y n 0 m = Some m' ∧ read_buf m' y n = Some la.
Proof.
  intros Hla Hlb Hy Hda Hdb Hia.
  destruct (q15_axpy_ref_run a b y n 0 m la _ Hla Hlb Hy Hda Hdb)
    as (m' & Hrun & _ & Hout).
  exists m'. split; [done|]. rewrite Hout. f_equal.
  apply zip_with_alpha_0; [|done].
  rewrite (read_buf_length _ _ _ _ Hla), length_replicate. done.
Qed.

Lemma q15_axpy_ref_identity_witness :
  ∃ m', q15_axpy_ref buf_a buf_b buf_y 3 0
          (three_buffers [32767; -32768; 12] [0; 0; 0]) = Some m' ∧
        read_buf m' buf_y 3 = Some [32767; -32768; 12].
Proof.
  apply (q15_axpy_ref_identity (three_buffers [32767; -32768; 12] [0; 0; 0])
           buf_a buf_b buf_y 3 [32767; -32768; 12]).
  - eval_buf.
  - eval_buf.
  - eval_valid.
  - apply buf_y_apart_a.
  - apply buf_y_apart_b.
  - eval_int16.
Defined.

(** C7. With [n = 0] both kernels return at once without touching memory,
    the output read back is empty, and the verifier returns (1, 0); no buffer
    is accessed, so none needs to hold anything. *)
Theorem zero_length_accepted tgt m a b y alpha ref test :
  q15_axpy_ref a b y 0 alpha m = Some m ∧
  q15_axpy_rvv tgt a b y 0 alpha m = Some m ∧
  read_buf m y 0 = Some [] ∧
  verify_equal m ref test 0 = Some (1, 0).
Proof.
  split; [reflexivity|]. split; [by destruct tgt|]. split; reflexivity.
Qed.

(** C8, as stated, fails: with input arrays of two and of one element and
    [n = 1], the kernels and the verifier return normally. *)
Lemma unequal_lengths_no_error :
  three_buffers [1; 2] [3] !! ptr_block buf_a = Some [1; 2] ∧
  three_buffers [1; 2] [3] !! ptr_block buf_b = Some [3] ∧
  length [1; 2] ≠ length [3] ∧
  (m' ← q15_axpy_ref buf_a buf_b buf_y 1 7 (three_buffers [1; 2] [3]);
   read_buf m' buf_y 1) = Some [22] ∧
  (m' ← q15_axpy_rvv NoVector buf_a buf_b buf_y 1 7 (three_buffers [1; 2] [3]);
   read_buf m' buf_y 1) = Some [22] ∧
  verify_equal (three_buffers [1; 2] [3]) buf_a buf_b 1 = Some (0, 2).
Proof. repeat split; try (vm_compute; reflexivity). by intros [=]. Qed.

(** C8, amended.  The kernels and the verifier have no length check and no
    error result: each receives a single count [n], and returns normally as
    soon as every buffer it is given holds at least [n] elements, whatever the
    arrays' own lengths and whether or not they overlap. *)
Theorem no_length_check tgt m a b y n alpha :
  target_conforming tgt →
  valid_range m a n → valid_range m b n → valid_range m y n →
  is_Some (q15_axpy_ref a b y n alpha m) ∧
  is_Some (q15_axpy_rvv tgt a b y n alpha m) ∧
  is_Some (verify_equal m a b n).
Proof.
  intros Htgt Ha Hb Hy. split; [by apply q15_axpy_ref_is_Some|].
  split; [by apply q15_axpy_rvv_is_Some|by apply verify_equal_is_Some].
Qed.

Lemma no_length_check_witness :
  is_Some (q15_axpy_ref buf_a buf_b buf_y 1 7 (three_buffers [1; 2] [3])) ∧
  is_Some (q15_axpy_rvv (Vector (hw128 RNU)) buf_a buf_b buf_y 1 7
             (three_buffers [1; 2] [3])) ∧
  is_Some (verify_equal (three_buffers [1; 2] [3]) buf_a buf_b 1).
Proof.
  apply (no_length_check (Vector (hw128 RNU)) (three_buffers [1; 2] [3])
           buf_a buf_b buf_y 1 7).
  - apply hw128_conforming.
  - eval_valid.
  - eval_valid.
  - eval_valid.
Defined.

(** C9. A call of either kernel on buffers of [n] elements returns a memory
    that differs from the one it was given at most in [y[0..n)]; so [a] and
    [b] read back unchanged whenever they do not overlap the output. *)
Theorem kernels_only_write_output tgt m a b y n alpha :
  target_conforming tgt →
  valid_range m a n → valid_range m b n → valid_range m y n →
  (∃ m', q15_axpy_ref a b y n alpha m = Some m' ∧
         only_writes m m' y n ∧
         (disjoint_ranges y n a n → read_buf m' a n = read_buf m a n) ∧
         (disjoint_ranges y n b n → read_buf m' b n = read_buf m b n)) ∧
  (∃ m', q15_axpy_rvv tgt a b y n alpha m = Some m' ∧
         only_writes m m' y n ∧
         (disjoint_ranges y n a n → read_buf m' a n = read_buf m a n) ∧
         (disjoint_ranges y n b n → read_buf m' b n = read_buf m b n)).
Proof.
  intros Htgt Ha Hb Hy. split.
  - destruct (q15_axpy_ref_is_Some a b y n alpha m Ha Hb Hy) as [m' Hrun].
    pose proof (q15_axpy_ref_only_writes _ _ _ _ _ _ _ Hrun) as Hw.
    exists m'. split; [done|]. split; [done|].
    split; intros Hd; by eapply only_writes_read_buf.
  - destruct (q15_axpy_rvv_is_Some tgt a b y n alpha m Htgt Ha Hb Hy)
      as [m' Hrun].
    pose proof (q15_axpy_rvv_only_writes _ _ _ _ _ _ _ _ Htgt Hrun) as Hw.
    exists m'. split; [done|]. split; [done|].
    split; intros Hd; by eapply only_writes_read_buf.
Qed.

Lemma kernels_only_write_output_witness :
  (∃ m', q15_axpy_ref buf_a buf_b buf_y 2 3 (three_buffers [1; 2] [3; 4])
           = Some m' ∧
         read_buf m' buf_a 2 = Some [1; 2] ∧
         read_buf m' buf_b 2 = Some [3; 4]) ∧
  (∃ m', q15_axpy_rvv (Vector (hw128 RNU)) buf_a buf_b buf_y 2 3
           (three_buffers [1; 2] [3; 4]) = Some m' ∧
         read_buf m' buf_a 2 = Some [1; 2] ∧
         read_buf m' buf_b 2 = Some [3; 4]).
Proof.
  destruct (kernels_only_write_output (Vector (hw128 RNU))
              (three_buffers [1; 2] [3; 4]) buf_a buf_b buf_y 2 3)
    as [(m1 & Hrun1 & _ & Ha1 & Hb1) (m2 & Hrun2 & _ & Ha2 & Hb2)].
  - apply hw128_conforming.
  - eval_valid.
  - eval_valid.
  - eval_valid.
  - split.
    + exists m1. split; [exact Hrun1|]. split.
      * rewrite Ha1 by apply buf_y_apart_a. eval_buf.
      * rewrite Hb1 by apply buf_y_apart_b. eval_buf.
    + exists m2. split; [exact Hrun2|]. split.
      * rewrite Ha2 by apply buf_y_apart_a. eval_buf.
      * rewrite Hb2 by apply buf_y_apart_b. eval_buf.
Defined.

(** C10. With [alpha = 0] the scalar kernel copies a 16-bit buffer [a] to the
    output whatever [b] holds, because the widened product is zero for every
    element. *)
Theorem q15_axpy_ref_alpha_0 m a b y n la lb :
  read_buf m a n = Some la → read_buf m b n = Some lb →
  valid_range m y n →
  disjoint_ranges y n a n → disjoint_ranges y n b n →
  Forall int16 la → Forall int16 lb →
  (∀ bi, mul32 (cast_int32 0) (cast_int32 bi) = 0) ∧
  ∃ m', q15_axpy_ref a b y n 0 m = Some m' ∧ read_buf m' y n = Some la.
Proof.
  intros Hla Hlb Hy Hda Hdb Hia _. split; [done|].
  destruct (q15_axpy_ref_run a b y n 0 m la lb Hla Hlb Hy Hda Hdb)
    as (m' & Hrun & _ & Hout).
  exists m'. split; [done|]. rewrite Hout. f_equal.
  apply zip_with_alpha_0; [|done].
  by rewrite (read_buf_length _ _ _ _ Hla), (read_buf_length _ _ _ _ Hlb).
Qed.

Lemma q15_axpy_ref_alpha_0_witness :
  (∀ bi, mul32 (cast_int32 0) (cast_int32 bi) = 0) ∧
  ∃ m', q15_axpy_ref buf_a buf_b buf_y 3 0
          (three_buffers [32767; -32768; 12] [-32768; 32767; 9]) = Some m' ∧
        read_buf m' buf_y 3 = Some [32767; -32768; 12].
Proof.
  apply (q15_axpy_ref_alpha_0
           (three_buffers [32767; -32768; 12] [-32768; 32767; 9])
           buf_a buf_b buf_y 3 [32767; -32768; 12] [-32768; 32767; 9]).
  - eval_buf.
  - eval_buf.
  - eval_valid.
  - apply buf_y_apart_a.
  - apply buf_y_apart_b.
  - eval_int16.
  - eval_int16.
Defined.

(** * Further properties of the code *)

(** ** Saturation *)

Section saturation.

Lemma sat_q15_scalar_int16 v : int16 (sat_q15_scalar v).
Proof. rewrite sat_q15_scalar_saturate. apply saturate_spec_int16. Qed.

End saturation.

(** X1. Whatever 32-bit (or wider) value it is given, [sat_q15_scalar]
    returns a 16-bit value, and it returns its argument exactly when the
    argument already is one. *)
Theorem sat_q15_scalar_range_fixpoint v :
  int16 (sat_q15_scalar v) ∧ (sat_q15_scalar v = v ↔ int16 v).
Proof.
  split; [apply sat_q15_scalar_int16|].
  rewrite sat_q15_scalar_saturate. split.
  - intros <-. apply saturate_spec_int16.
  - apply saturate_spec_id.
Qed.

(** X2. [sat_q15_scalar] is monotone: a larger accumulator never gives a
    smaller sample. *)
Theorem sat_q15_scalar_monotone v w :
  v ≤ w → sat_q15_scalar v ≤ sat_q15_scalar w.
Proof.
  intros Hvw. rewrite !sat_q15_scalar_saturate. unfold saturate_spec.
  repeat case_match; lia.
Qed.

Lemma sat_q15_scalar_monotone_witness :
  sat_q15_scalar (-40000) ≤ sat_q15_scalar 123456.
Proof. apply (sat_q15_scalar_monotone (-40000) 123456). lia. Defined.

(** ** The scalar kernel, continued *)

Section scalar_kernel_more.
Implicit Types (m : mem) (a b y p q : ptr) (i j n alpha : Z).

Lemma disjoint_forward_safe y p n : disjoint_ranges y n p n → forward_safe y p n.
Proof. intros Hd i j Hj Hi. apply Hd; lia. Qed.

Lemma forward_safe_same p n : forward_safe p p n.
Proof. intros i j Hj Hi Heq%(inj (ptr_add p)). lia. Qed.

(** The kernel's result when writes never reach a cell that is still to be
    read. *)
Lemma q15_axpy_ref_run_forward a b y n alpha m la lb :
  read_buf m a n = Some la → read_buf m b n = Some lb →
  valid_range m y n →
  forward_safe y a n → forward_safe y b n →
  ∃ m', q15_axpy_ref a b y n alpha m = Some m' ∧
        only_writes m m' y n ∧
        read_buf m' y n =
          Some (zip_with (λ ai bi, sat_q15_scalar (axpy_acc ai alpha bi)) la lb).
Proof.
  intros Hla Hlb Hy Hfa Hfb.
  set (out := zip_with (λ ai bi, sat_q15_scalar (axpy_acc ai alpha bi)) la lb).
  pose proof (read_buf_length _ _ _ _ Hla) as Hlena.
  pose proof (read_buf_length _ _ _ _ Hlb) as Hlenb.
  destruct (for_range_total
    (λ i s, only_writes m s y i ∧
            (∀ q, is_Some (load s q) ↔ is_Some (load m q)) ∧
            ∀ j, 0 ≤ j < i → load s (y +ₚ j) = out !! Z.to_nat j)
    0 n (q15_axpy_ref_body a b y alpha) m) as (m' & Hrun & Hw & _ & Hout).
  { split; [apply only_writes_refl|]. split; [done|]. intros j Hj. lia. }
  { intros i s Hi (Hw & Hv & Hout).
    destruct (lookup_lt_is_Some_2 la (Z.to_nat i)) as [ai Hai]; [lia|].
    destruct (lookup_lt_is_Some_2 lb (Z.to_nat i)) as [bi Hbi]; [lia|].
    assert (load s (a +ₚ i) = Some ai) as Hai'.
    { rewrite Hw by (intros j Hj Heq; apply (Hfa i j); [lia|lia|done]).
      by rewrite (read_buf_lookup _ _ _ _ _ Hla Hi). }
    assert (load s (b +ₚ i) = Some bi) as Hbi'.
    { rewrite Hw by (intros j Hj Heq; apply (Hfb i j); [lia|lia|done]).
      by rewrite (read_buf_lookup _ _ _ _ _ Hlb Hi). }
    destruct (store_is_Some s (y +ₚ i) (sat_q15_scalar (axpy_acc ai alpha bi)))
      as [s' Hst]; [by apply Hv, Hy|].
    exists s'. split; [apply q15_axpy_ref_body_Some; by eauto|].
    split; [eapply only_writes_store; [lia|done..]|].
    split; [intros q; rewrite <-Hv; by eapply store_valid|].
    intros j Hj. destruct (decide (j = i)) as [->|Hne].
    - rewrite (load_store_same _ _ _ _ Hst). symmetry. unfold out.
      rewrite lookup_zip_with, Hai, Hbi. done.
    - rewrite (load_store_other _ _ _ _ _ Hst).
      + apply Hout. lia.
      + intros Heq%(inj (ptr_add y)). done. }
  exists m'. split; [done|].
  split; [by apply only_writes_weaken|].
  apply read_buf_Some. split.
  - unfold out. rewrite length_zip_with_l_eq by lia. done.
  - intros k Hk. rewrite Hout by lia. by rewrite Nat2Z.id.
Qed.

Lemma for_indices_app {S : Type} (body : Z → S → option S) l1 l2 s :
  for_indices body (l1 ++ l2) s =
  s' ← for_indices body l1 s; for_indices body l2 s'.
Proof.
  revert s. induction l1 as [|i l1 IH]; intros s; simpl; [done|].
  destruct (body i s) as [s1|]; simpl; [apply IH|done].
Qed.

Lemma for_indices_fmap {S : Type} (body : Z → S → option S) (f : Z → Z) l s :
  for_indices body (f <$> l) s = for_indices (λ i, body (f i)) l s.
Proof.
  revert s. induction l as [|i l IH]; intros s; simpl; [done|].
  destruct (body (f i) s) as [s1|]; simpl; [apply IH|done].
Qed.

Lemma for_indices_ext {S : Type} (body1 body2 : Z → S → option S) l s :
  (∀ i s, body1 i s = body2 i s) →
  for_indices body1 l s = for_indices body2 l s.
Proof.
  intros Hext. revert s. induction l as [|i l IH]; intros s; simpl; [done|].
  rewrite Hext. destruct (body2 i s) as [s1|]; simpl; [apply IH|done].
Qed.

End scalar_kernel_more.

Section exact_values.

(** On 16-bit data the value stored is the clamped exact sum. *)
Lemma zip_with_axpy_exact alpha la lb :
  int16 alpha → Forall int16 la → Forall int16 lb →
  zip_with (λ ai bi, sat_q15_scalar (axpy_acc ai alpha bi)) la lb =
  zip_with (λ ai bi, saturate_spec (ai + alpha * bi)) la lb.
Proof.
  intros Hal Hla. revert lb.
  induction Hla as [|ai la Hai Hla IH]; intros lb Hlb; [done|].
  destruct Hlb as [|bi lb Hbi Hlb]; [done|]. simpl.
  rewrite IH by done. f_equal.
  by rewrite axpy_acc_exact, sat_q15_scalar_saturate.
Qed.

Lemma Forall_int16_sat alpha la lb :
  Forall int16
    (zip_with (λ ai bi, sat_q15_scalar (axpy_acc ai alpha bi)) la lb).
Proof.
  revert lb. induction la as [|ai la IH]; intros [|bi lb]; simpl;
    try apply Forall_nil_2.
  apply Forall_cons_2; [apply sat_q15_scalar_int16|apply IH].
Qed.

End exact_values.

(** X4. The scalar kernel can accumulate in place: called with [y = a] it
    replaces [a] by the clamped sums computed from the old contents of [a]
    and leaves [b] as it was; called with [y = b] it does the same into [b].
    Each iteration reads index [i] of both inputs before it writes index [i]
    of the output. *)
Theorem q15_axpy_ref_in_place a b n alpha m la lb :
  read_buf m a n = Some la → read_buf m b n = Some lb →
  disjoint_ranges a n b n →
  int16 alpha → Forall int16 la → Forall int16 lb →
  (∃ m', q15_axpy_ref a b a n alpha m = Some m' ∧
         read_buf m' a n =
           Some (zip_with (λ ai bi, saturate_spec (ai + alpha * bi)) la lb) ∧
         read_buf m' b n = Some lb) ∧
  (∃ m', q15_axpy_ref a b b n alpha m = Some m' ∧
         read_buf m' b n =
           Some (zip_with (λ ai bi, saturate_spec (ai + alpha * bi)) la lb) ∧
         read_buf m' a n = Some la).
Proof.
  intros Hla Hlb Hd Hal Hia Hib.
  assert (disjoint_ranges b n a n) as Hd'.
  { intros i j Hi Hj Heq. by apply (Hd j i). }
  split.
  - destruct (q15_axpy_ref_run_forward a b a n alpha m la lb)
      as (m' & Hrun & Hw & Hout); [done..| | | |].
    + apply read_buf_valid. by eauto.
    + apply forward_safe_same.
    + by apply disjoint_forward_safe.
    + exists m'. split; [done|]. rewrite Hout, zip_with_axpy_exact by done.
      split; [done|]. rewrite <-Hlb. by eapply only_writes_read_buf.
  - destruct (q15_axpy_ref_run_forward a b b n alpha m la lb)
      as (m' & Hrun & Hw & Hout); [done..| | | |].
    + apply read_buf_valid. by eauto.
    + by apply disjoint_forward_safe.
    + apply forward_safe_same.
    + exists m'. split; [done|]. rewrite Hout, zip_with_axpy_exact by done.
      split; [done|]. rewrite <-Hla. by eapply only_writes_read_buf.
Qed.

Lemma q15_axpy_ref_in_place_witness :
  (∃ m', q15_axpy_ref buf_a buf_b buf_a 3 2
           (three_buffers [1; 30000; -5] [10; 20000; -20000]) = Some m' ∧
         read_buf m' buf_a 3 =
           Some (zip_with (λ ai bi, saturate_spec (ai + 2 * bi))
                   [1; 30000; -5] [10; 20000; -20000]) ∧
         read_buf m' buf_b 3 = Some [10; 20000; -20000]) ∧
  (∃ m', q15_axpy_ref buf_a buf_b buf_b 3 2
           (three_buffers [1; 30000; -5] [10; 20000; -20000]) = Some m' ∧
         read_buf m' buf_b 3 =
           Some (zip_with (λ ai bi, saturate_spec (ai + 2 * bi))
                   [1; 30000; -5] [10; 20000; -20000]) ∧
         read_buf m' buf_a 3 = Some [1; 30000; -5]).
Proof.
  apply (q15_axpy_ref_in_place buf_a buf_b 3 2
           (three_buffers [1; 30000; -5] [10; 20000; -20000])
           [1; 30000; -5] [10; 20000; -20000]).
  - eval_buf.
  - eval_buf.
  - by intros i j _ _ [=].
  - unfold int16. lia.
  - eval_int16.
  - eval_int16.
Defined.

(** X6. Processing [n1 + n2] elements in one call is the same as processing
    the first [n1] and then, from the memory so obtained, the next [n2] with
    the three pointers advanced by [n1]. *)
Theorem q15_axpy_ref_split a b y n1 n2 alpha m :
  0 ≤ n1 → 0 ≤ n2 →
  q15_axpy_ref a b y (n1 + n2) alpha m =
  (m1 ← q15_axpy_ref a b y n1 alpha m;
   q15_axpy_ref (a +ₚ n1) (b +ₚ n1) (y +ₚ n1) n2 alpha m1).
Proof.
  intros Hn1 Hn2. unfold q15_axpy_ref, for_range.
  rewrite !Z.sub_0_r, seqZ_app, for_indices_app by done.
  destruct (for_indices (q15_axpy_ref_body a b y alpha) (seqZ 0 n1) m)
    as [m1|]; [simpl|done].
  replace (seqZ (0 + n1) n2) with (Z.add n1 <$> seqZ 0 n2)
    by (by rewrite fmap_add_seqZ, Z.add_0_r, Z.add_0_l).
  rewrite for_indices_fmap. apply for_indices_ext. intros i s.
  unfold q15_axpy_ref_body. by rewrite !ptr_add_assoc.
Qed.

Lemma q15_axpy_ref_split_witness :
  q15_axpy_ref buf_a buf_b buf_y (1 + 2) 5
    (three_buffers [1; 2; 3] [4; 5; 6]) =
  (m1 ← q15_axpy_ref buf_a buf_b buf_y 1 5 (three_buffers [1; 2; 3] [4; 5; 6]);
   q15_axpy_ref (buf_a +ₚ 1) (buf_b +ₚ 1) (buf_y +ₚ 1) 2 5 m1).
Proof.
  apply (q15_axpy_ref_split buf_a buf_b buf_y 1 2 5
           (three_buffers [1; 2; 3] [4; 5; 6])); lia.
Defined.

(** X7. A zero or negative count makes every function return at once: the
    kernels leave the memory as it is on either build, and the verifier
    answers (1, 0), without any access to the buffers. *)
Theorem nonpositive_count_is_noop tgt a b y n alpha m :
  n ≤ 0 →
  q15_axpy_ref a b y n alpha m = Some m ∧
  q15_axpy_rvv tgt a b y n alpha m = Some m ∧
  verify_equal m a b n = Some (1, 0).
Proof.
  intros Hn.
  assert (q15_axpy_ref a b y n alpha m = Some m) as Href.
  { unfold q15_axpy_ref, for_range. by rewrite seqZ_nil by lia. }
  split; [done|]. split.
  - destruct tgt as [|hw]; [done|]. simpl.
    replace (Z.to_nat n) with 0%nat by lia. simpl.
    destruct (0 <? n) eqn:H0; [lia|done].
  - unfold verify_equal, for_range. by rewrite seqZ_nil by lia.
Qed.

Lemma nonpositive_count_is_noop_witness :
  q15_axpy_ref buf_a buf_b buf_y (-3) 5 ∅ = Some ∅ ∧
  q15_axpy_rvv (Vector (hw128 RNE)) buf_a buf_b buf_y (-3) 5 ∅ = Some ∅ ∧
  verify_equal ∅ buf_a buf_b (-3) = Some (1, 0).
Proof.
  apply (nonpositive_count_is_noop (Vector (hw128 RNE)) buf_a buf_b buf_y
           (-3) 5 ∅). lia.
Defined.

(** ** The verifier, continued *)

Section verifier_more.
Implicit Types (m : mem) (ref test : ptr) (i n : Z) (lr lt : list Z).

Lemma max_abs_diff_sym lr lt : max_abs_diff_spec lr lt = max_abs_diff_spec lt lr.
Proof.
  unfold max_abs_diff_spec. revert lt.
  induction lr as [|r lr IH]; intros [|t lt]; simpl; [done..|].
  rewrite IH. lia.
Qed.

Lemma max_abs_diff_nonneg lr lt : 0 ≤ max_abs_diff_spec lr lt.
Proof.
  unfold max_abs_diff_spec. revert lt.
  induction lr as [|r lr IH]; intros [|t lt]; simpl; [done..|].
  specialize (IH lt). lia.
Qed.

Lemma max_abs_diff_int16 lr lt :
  Forall int16 lr → Forall int16 lt → max_abs_diff_spec lr lt ≤ 65535.
Proof.
  unfold max_abs_diff_spec. intros Hr. revert lt.
  induction Hr as [|r lr Hr16 Hr IH]; intros lt Ht; [done|].
  destruct Ht as [|t lt Ht16 Ht]; [done|]. simpl.
  specialize (IH lt Ht). unfold int16 in *. lia.
Qed.

Lemma max_abs_diff_upper lr lt (k : nat) r t :
  lr !! k = Some r → lt !! k = Some t → Z.abs (r - t) ≤ max_abs_diff_spec lr lt.
Proof.
  unfold max_abs_diff_spec. revert lt k.
  induction lr as [|r0 lr IH]; intros [|t0 lt] [|k]; simpl; try done.
  - intros [= ->] [= ->]. lia.
  - intros Hr Ht. specialize (IH lt k Hr Ht). lia.
Qed.

Lemma max_abs_diff_attained lr lt :
  lr ≠ [] → lt ≠ [] →
  ∃ (k : nat) r t, lr !! k = Some r ∧ lt !! k = Some t ∧
                   max_abs_diff_spec lr lt = Z.abs (r - t).
Proof.
  unfold max_abs_diff_spec. revert lt.
  induction lr as [|r0 lr IH]; intros [|t0 lt] Hr Ht; try done. simpl.
  destruct (decide (foldr Z.max 0 (zip_with (λ r t, Z.abs (r - t)) lr lt)
                    ≤ Z.abs (r0 - t0))) as [Hle|Hgt].
  - exists 0%nat, r0, t0. repeat split. lia.
  - destruct lr as [|r1 lr]; [simpl in Hgt; lia|].
    destruct lt as [|t1 lt]; [simpl in Hgt; lia|].
    destruct (IH (t1 :: lt)) as (k & r & t & Hkr & Hkt & Hmax); [done..|].
    exists (S k), r, t. repeat split; [done..|]. lia.
Qed.

Lemma max_abs_diff_zero lr lt :
  length lr = length lt → max_abs_diff_spec lr lt = 0 ↔ lr = lt.
Proof.
  intros Hlen. split; [|intros ->; apply max_abs_diff_same].
  intros Hz. apply (list_eq_same_length _ _ (length lr)); [done..|].
  intros k r t _ Hr Ht.
  pose proof (max_abs_diff_upper lr lt k r t Hr Ht). lia.
Qed.

End verifier_more.

(** X10. The verifier is symmetric: exchanging the reference and the buffer
    under test changes neither the verdict nor the reported difference. *)
Theorem verify_equal_symmetric m ref test n lr lt :
  read_buf m ref n = Some lr → read_buf m test n = Some lt →
  Forall int16 lr → Forall int16 lt →
  verify_equal m ref test n = verify_equal m test ref n.
Proof.
  intros Hlr Hlt Hir Hit.
  rewrite (verify_equal_run m ref test n lr lt) by done.
  rewrite (verify_equal_run m test ref n lt lr) by done.
  rewrite max_abs_diff_sym. f_equal. f_equal.
  destruct (decide (lr = lt)) as [->|Hne]; [by rewrite decide_True|].
  rewrite decide_False; [done|]. by intros ->.
Qed.

Lemma verify_equal_symmetric_witness :
  verify_equal (three_buffers [5; -7; 100] [5; 32767; 90]) buf_a buf_b 3 =
  verify_equal (three_buffers [5; -7; 100] [5; 32767; 90]) buf_b buf_a 3.
Proof.
  apply (verify_equal_symmetric (three_buffers [5; -7; 100] [5; 32767; 90])
           buf_a buf_b 3 [5; -7; 100] [5; 32767; 90]).
  - eval_buf.
  - eval_buf.
  - eval_int16.
  - eval_int16.
Defined.

(** X11. On 16-bit buffers the two results of the verifier agree with each
    other and stay in range: the reported difference lies between 0 and
    65535, and the verdict is 1 exactly when that difference is 0. *)
Theorem verify_equal_results_consistent m ref test n lr lt :
  read_buf m ref n = Some lr → read_buf m test n = Some lt →
  Forall int16 lr → Forall int16 lt →
  ∃ ok md, verify_equal m ref test n = Some (ok, md) ∧
           0 ≤ md ≤ 65535 ∧ (ok = 1 ↔ md = 0).
Proof.
  intros Hlr Hlt Hir Hit.
  rewrite (verify_equal_run m ref test n lr lt) by done.
  eexists _, _. split; [done|].
  pose proof (max_abs_diff_nonneg lr lt).
  pose proof (max_abs_diff_int16 lr lt Hir Hit).
  split; [lia|].
  rewrite max_abs_diff_zero
    by (by rewrite (read_buf_length _ _ _ _ Hlr), (read_buf_length _ _ _ _ Hlt)).
  destruct (decide (lr = lt)); split; done.
Qed.

Lemma verify_equal_results_consistent_witness :
  ∃ ok md,
    verify_equal (three_buffers [5; -32768; 100] [5; 32767; 90]) buf_a buf_b 3
      = Some (ok, md) ∧
    0 ≤ md ≤ 65535 ∧ (ok = 1 ↔ md = 0).
Proof.
  apply (verify_equal_results_consistent
           (three_buffers [5; -32768; 100] [5; 32767; 90]) buf_a buf_b 3
           [5; -32768; 100] [5; 32767; 90]).
  - eval_buf.
  - eval_buf.
  - eval_int16.
  - eval_int16.
Defined.

(** X12. The difference the verifier reports is a true maximum over a
    non-empty comparison: no index differs by more, and some index differs by
    exactly that much. *)
Theorem verify_equal_max_attained m ref test n lr lt :
  0 < n →
  read_buf m ref n = Some lr → read_buf m test n = Some lt →
  Forall int16 lr → Forall int16 lt →
  ∃ ok md, verify_equal m ref test n = Some (ok, md) ∧
    (∀ (k : nat) r t, lr !! k = Some r → lt !! k = Some t → Z.abs (r - t) ≤ md) ∧
    (∃ (k : nat) r t, lr !! k = Some r ∧ lt !! k = Some t ∧ md = Z.abs (r - t)).
Proof.
  intros Hn Hlr Hlt Hir Hit.
  rewrite (verify_equal_run m ref test n lr lt) by done.
  eexists _, _. split; [done|]. split.
  - intros k r t. apply max_abs_diff_upper.
  - apply max_abs_diff_attained.
    + pose proof (read_buf_length _ _ _ _ Hlr). intros ->. simpl in *. lia.
    + pose proof (read_buf_length _ _ _ _ Hlt). intros ->. simpl in *. lia.
Qed.

Lemma verify_equal_max_attained_witness :
  ∃ ok md,
    verify_equal (three_buffers [5; -7; 100] [5; 32767; 90]) buf_a buf_b 3
      = Some (ok, md) ∧
    (∀ (k : nat) r t, [5; -7; 100] !! k = Some r → [5; 32767; 90] !! k = Some t →
                      Z.abs (r - t) ≤ md) ∧
    (∃ (k : nat) r t, [5; -7; 100] !! k = Some r ∧
                      [5; 32767; 90] !! k = Some t ∧ md = Z.abs (r - t)).
Proof.
  apply (verify_equal_max_attained
           (three_buffers [5; -7; 100] [5; 32767; 90]) buf_a buf_b 3
           [5; -7; 100] [5; 32767; 90]).
  - lia.
  - eval_buf.
  - eval_buf.
  - eval_int16.
  - eval_int16.
Defined.

(** ** The test program *)

Section test_program.
Implicit Types (m : mem) (a b : ptr) (n alpha : Z) (tgt : target).

(** Both runs and the comparison, for any count and coefficient, when the
    kernel under test is the fallback. *)
Lemma pipeline_fallback a b y0 y1 n alpha m :
  valid_range m a n → valid_range m b n →
  valid_range m y0 n → valid_range m y1 n →
  disjoint_ranges y0 n a n → disjoint_ranges y0 n b n →
  disjoint_ranges y1 n a n → disjoint_ranges y1 n b n →
  disjoint_ranges y1 n y0 n →
  (m1 ← q15_axpy_ref a b y0 n alpha m;
   m2 ← q15_axpy_rvv NoVector a b y1 n alpha m1;
   '(ok, md) ← verify_equal m2 y0 y1 n;
   Some (if ok =? 0 then 1 else 0)) = Some 0.
Proof.
  intros Ha Hb Hy0 Hy1 H0a H0b H1a H1b H10.
  destruct (proj2 (read_buf_valid m a n) Ha) as [la Hla].
  destruct (proj2 (read_buf_valid m b n) Hb) as [lb Hlb].
  destruct (two_runs_fallback a b y0 y1 n alpha m la lb)
    as (m1 & m2 & Hrun1 & Hrun2 & Hout0 & Hout1); [done..|].
  rewrite Hrun1. cbn [mbind option_bind].
  rewrite Hrun2. cbn [mbind option_bind].
  rewrite (verify_equal_run m2 y0 y1 n _ _ Hout0 Hout1
             (Forall_int16_sat _ _ _) (Forall_int16_sat _ _ _)).
  by rewrite decide_True.
Qed.

Lemma buf_y1_apart_a n k : disjoint_ranges buf_y1 n buf_a k.
Proof. by intros i j _ _ [=]. Qed.

Lemma buf_y1_apart_b n k : disjoint_ranges buf_y1 n buf_b k.
Proof. by intros i j _ _ [=]. Qed.

Lemma buf_y1_apart_y n k : disjoint_ranges buf_y1 n buf_y k.
Proof. by intros i j _ _ [=]. Qed.

(** A whole block read from its start. *)
Lemma read_buf_block m blk (l : list Z) n :
  m !! blk = Some l → length l = Z.to_nat n →
  read_buf m (Ptr blk 0) n = Some l.
Proof.
  intros Hblk Hlen. apply read_buf_Some. split; [done|]. intros k Hk.
  unfold load, ptr_add. cbn [ptr_off ptr_block]. rewrite Z.add_0_l.
  destruct (Z.of_nat k <? 0) eqn:Hneg; [lia|].
  rewrite Hblk. cbn [mbind option_bind]. by rewrite Nat2Z.id.
Qed.

Lemma four_buffers_a la lb n :
  length la = Z.to_nat n → read_buf (four_buffers la lb) buf_a n = Some la.
Proof. intros Hlen. by apply read_buf_block. Qed.

Lemma four_buffers_b la lb n :
  length lb = Z.to_nat n → read_buf (four_buffers la lb) buf_b n = Some lb.
Proof. intros Hlen. by apply read_buf_block. Qed.

Lemma four_buffers_y la lb n :
  length la = Z.to_nat n → valid_range (four_buffers la lb) buf_y n.
Proof.
  intros Hlen. apply read_buf_valid. eexists.
  apply read_buf_block; [done|]. by rewrite length_replicate.
Qed.

Lemma four_buffers_y1 la lb n :
  length la = Z.to_nat n → valid_range (four_buffers la lb) buf_y1 n.
Proof.
  intros Hlen. apply read_buf_valid. eexists.
  apply read_buf_block; [done|]. by rewrite length_replicate.
Qed.

End test_program.

(** X14. On a build that takes the fallback branch, [main] ends with exit
    status 0 whatever the test data: the two runs fill [y0] and [y1] with
    the same values and the verifier accepts them. *)
Theorem main_fallback_exit_status a b y0 y1 m :
  valid_range m a main_N → valid_range m b main_N →
  valid_range m y0 main_N → valid_range m y1 main_N →
  disjoint_ranges y0 main_N a main_N → disjoint_ranges y0 main_N b main_N →
  disjoint_ranges y1 main_N a main_N → disjoint_ranges y1 main_N b main_N →
  disjoint_ranges y1 main_N y0 main_N →
  main NoVector a b y0 y1 m = Some 0.
Proof. intros. unfold main. by apply pipeline_fallback. Qed.

Lemma main_fallback_exit_status_witness :
  main NoVector buf_a buf_b buf_y buf_y1
    (four_buffers (replicate (Z.to_nat 4096) 30000)
                  (replicate (Z.to_nat 4096) 12345)) = Some 0.
Proof.
  apply (main_fallback_exit_status buf_a buf_b buf_y buf_y1
           (four_buffers (replicate (Z.to_nat 4096) 30000)
                         (replicate (Z.to_nat 4096) 12345))).
  - apply read_buf_valid. eexists. apply four_buffers_a, length_replicate.
  - apply read_buf_valid. eexists. apply four_buffers_b, length_replicate.
  - apply four_buffers_y, length_replicate.
  - apply four_buffers_y1, length_replicate.
  - apply buf_y_apart_a.
  - apply buf_y_apart_b.
  - apply buf_y1_apart_a.
  - apply buf_y1_apart_b.
  - apply buf_y1_apart_y.
Defined.

(** X16. The test data [main] derives from [rand()] is always a 16-bit
    value, obtained without wrap-around as [r mod 65536 - 32768]; and every
    16-bit value is the sample of some draw. *)
Theorem rand_sample_range :
  (∀ r, 0 ≤ r → int16 (rand_sample r) ∧
                rand_sample r = r `mod` 65536 - 32768) ∧
  (∀ v, int16 v → rand_sample (v + 32768) = v).
Proof.
  split.
  - intros r Hr. unfold rand_sample. rewrite Z.rem_mod_nonneg by lia.
    pose proof (Z.mod_pos_bound r 65536 ltac:(lia)) as Hm.
    rewrite cast_int16_id by (unfold int16; lia).
    split; [unfold int16; lia|done].
  - intros v Hv. unfold rand_sample, int16 in *.
    rewrite Z.rem_mod_nonneg, Z.mod_small by lia.
    rewrite cast_int16_id by (unfold int16; lia). lia.
Qed.

Lemma rand_sample_range_witness :
  (int16 (rand_sample 1804289383) ∧
   rand_sample 1804289383 = 1804289383 `mod` 65536 - 32768) ∧
  rand_sample (-32768 + 32768) = -32768.
Proof.
  split.
  - apply (proj1 rand_sample_range 1804289383). lia.
  - apply (proj2 rand_sample_range (-32768)). unfold int16. lia.
Defined.
